(** * The multi-provider image-generation hook [useImageGeneration]

    A shallow embedding of the React hook that fans one prompt out to
    several image providers and aggregates images, errors, timings and the
    failed-provider list, followed by the properties of one generation
    round.

    Modelling conventions.
    - The five [useState] cells are the fields of [HookState]; a setter
      called with an updater function is a function on its cell, a setter
      called with a plain value is the constant updater.
    - [Date.now()] returns an integral number of milliseconds, far below
      2^53, so instants and their differences are exact integers ([Z]).
    - JavaScript runs the hook on one thread: the code of [generateImage]
      behind its two [await]s runs without interruption once the endpoint
      call has settled, and React applies the queued updates in the order
      they were issued.  A round is therefore the prologue of
      [startGeneration], then the resumption of every dispatched call in
      the order the calls settle, then the continuation of the join.
    - [console.log], [console.error] and [router.refresh()] do not touch
      the hook's cells and are taken not to throw; they are left out.
    - The parsed response body is an object whose [error] and [image]
      members are strings when present; a body that does not parse is a
      rejection of [response.json()].
    - [providerToModel[provider]] reads an own property: provider keys are
      provider names, and a missing entry reads as [undefined] ([None]).
    - One round is followed on its own: no second [startGeneration] and no
      [resetState] runs while its calls are in flight. *)

From stdpp Require Import base option list strings gmap pretty.
From Stdlib Require Import ZArith Lia.

Local Open Scope Z_scope.

(** ** Data model *)

(** [ProviderKey] is a string-valued key of the timing record. *)
Abbreviation ProviderKey := string (only parsing).

Module ImageResult.
Record t := {
  provider : ProviderKey;
  image : option string;
  modelId : option string
}.
End ImageResult.

Module ImageError.
Record t := { provider : ProviderKey; message : string }.
End ImageError.

Record ProviderTiming := {
  startTime : option Z;
  completionTime : option Z;
  elapsed : option Z
}.

Record HookState := {
  images : list ImageResult.t;
  errors : list ImageError.t;
  timings : gmap string ProviderTiming;
  failedProviders : list ProviderKey;
  isLoading : bool
}.

(** What a [catch] clause can receive: an [Error] object with its message,
    or any other thrown value. *)
Inductive Thrown :=
  | ErrorObject (msg : string)
  | OtherValue.

(** The parsed body [data] and the [Response] it came with. *)
Record Body := { data_error : option string; data_image : option string }.
Record Response := { status : N; data : Body }.

(** How the endpoint call of one provider settles: [fetch] or
    [response.json()] rejects, or a response with a parsed body arrives. *)
Inductive FetchOutcome :=
  | Rejects (err : Thrown)
  | Responds (r : Response).

(** The JSON body posted to the endpoint. *)
Record Request := {
  body_prompt : string;
  body_provider : ProviderKey;
  body_modelId : option string
}.

(** One dispatched endpoint call together with the way it settles and the
    value [Date.now()] returns when it does. *)
Record Call := {
  request : Request;
  outcome : FetchOutcome;
  settledAt : Z
}.

(** ** State with exceptions *)

Definition Eff (A : Type) : Type := HookState -> HookState * (Thrown + A).

Definition ret {A} (a : A) : Eff A := fun s => (s, inr a).
Definition throw {A} (e : Thrown) : Eff A := fun s => (s, inl e).
Definition bind {A B} (m : Eff A) (k : A -> Eff B) : Eff B :=
  fun s => match m s with
           | (s', inr a) => k a s'
           | (s', inl e) => (s', inl e)
           end.
Definition try_catch {A} (body : Eff A) (handler : Thrown -> Eff A) : Eff A :=
  fun s => match body s with
           | (s', inr a) => (s', inr a)
           | (s', inl e) => handler e s'
           end.
Definition try_finally {A} (body : Eff A) (final : Eff unit) : Eff A :=
  fun s => match body s with
           | (s', r) => match final s' with
                        | (s'', inr _) => (s'', r)
                        | (s'', inl e) => (s'', inl e)
                        end
           end.

#[export] Instance Eff_ret : MRet Eff := @ret.
#[export] Instance Eff_bind : MBind Eff := fun A B k m => bind m k.

(** ** The setters *)

Definition setImages (u : list ImageResult.t -> list ImageResult.t) : Eff unit :=
  fun s => ({| images := u (images s); errors := errors s;
               timings := timings s; failedProviders := failedProviders s;
               isLoading := isLoading s |}, inr tt).

Definition setErrors (u : list ImageError.t -> list ImageError.t) : Eff unit :=
  fun s => ({| images := images s; errors := u (errors s);
               timings := timings s; failedProviders := failedProviders s;
               isLoading := isLoading s |}, inr tt).

Definition setTimings
    (u : gmap string ProviderTiming -> gmap string ProviderTiming) : Eff unit :=
  fun s => ({| images := images s; errors := errors s;
               timings := u (timings s); failedProviders := failedProviders s;
               isLoading := isLoading s |}, inr tt).

Definition setFailedProviders
    (u : list ProviderKey -> list ProviderKey) : Eff unit :=
  fun s => ({| images := images s; errors := errors s;
               timings := timings s; failedProviders := u (failedProviders s);
               isLoading := isLoading s |}, inr tt).

Definition setIsLoading (b : bool) : Eff unit :=
  fun s => ({| images := images s; errors := errors s;
               timings := timings s; failedProviders := failedProviders s;
               isLoading := b |}, inr tt).

(** ** JavaScript helpers *)

(** [Object.fromEntries]: later entries overwrite earlier ones. *)
Definition fromEntries {V} (entries : list (string * V)) : gmap string V :=
  foldl (fun m kv => <[kv.1 := kv.2]> m) ∅ entries.

(** [response.ok]: the status is in the range 200-299. *)
Definition ok (r : Response) : bool :=
  ((200 <=? status r) && (status r <=? 299))%N.

(** [data.error || `Server error: ${response.status}`]: an absent or empty
    [error] member is falsy. *)
Definition error_or_status (r : Response) : string :=
  match data_error (data r) with
  | Some msg => if decide (msg = "") then "Server error: " +:+ pretty (status r)
                else msg
  | None => "Server error: " +:+ pretty (status r)
  end.

(** [err instanceof Error ? err.message : "An unexpected error occurred"] *)
Definition message_of (err : Thrown) : string :=
  match err with
  | ErrorObject msg => msg
  | OtherValue => "An unexpected error occurred"
  end.

(** [await fetch(...)] followed by [await response.json()], resumed with the
    way the call settled. *)
Definition await_fetch (o : FetchOutcome) : Eff Response :=
  match o with
  | Rejects err => throw err
  | Responds r => ret r
  end.

(** ** [resetState] *)

Section Hook.

(** The value of [initializeProviderRecord<ProviderTiming>()], imported from
    [@/lib/ai/image-ai]: the Provider Registry's empty record. *)
Variable initializeProviderRecord : gmap string ProviderTiming.

Definition resetState : Eff unit :=
  setImages (fun _ => []) ;;
  setErrors (fun _ => []) ;;
  setTimings (fun _ => initializeProviderRecord) ;;
  setFailedProviders (fun _ => []) ;;
  setIsLoading false.

End Hook.

(** ** [generateImage] *)

(** The body of [generateImage] for [provider] and [modelId], in the round
    whose dispatch instant is [now], resumed with the outcome [o] of its
    endpoint call at the instant [completion]. *)
Definition generateImage (now : Z) (provider : ProviderKey)
    (modelId : option string) (o : FetchOutcome) (completion : Z) : Eff unit :=
  let startTime := now in
  try_catch
    (response ← await_fetch o;
     let data := data response in
     (if negb (ok response)
      then throw (ErrorObject (error_or_status response))
      else ret tt) ;;
     let completionTime := completion in
     let elapsed := completionTime - startTime in
     setTimings (fun prev =>
       <[provider := {| startTime := Some startTime;
                        completionTime := Some completionTime;
                        elapsed := Some elapsed |}]> prev) ;;
     setImages (fun prevImages =>
       (fun item =>
          if decide (ImageResult.provider item = provider)
          then {| ImageResult.provider := ImageResult.provider item;
                  ImageResult.image := data_image data;
                  ImageResult.modelId := modelId |}
          else item) <$> prevImages))
    (fun err =>
     setFailedProviders (fun prev => prev ++ [provider]) ;;
     setErrors (fun prev =>
       prev ++ [ {| ImageError.provider := provider;
                    ImageError.message := message_of err |} ]) ;;
     setImages (fun prevImages =>
       (fun item =>
          if decide (ImageResult.provider item = provider)
          then {| ImageResult.provider := ImageResult.provider item;
                  ImageResult.image := None;
                  ImageResult.modelId := modelId |}
          else item) <$> prevImages)).

(** ** [startGeneration] *)

(** The synchronous prologue: the loading flag, the fresh image slots, the
    cleared error history and the timings of the round dispatched at [now]. *)
Definition prologue (providers : list ProviderKey)
    (providerToModel : gmap string string) (now : Z) : Eff unit :=
  setIsLoading true ;;
  setImages (fun _ =>
    (fun provider =>
       {| ImageResult.provider := provider;
          ImageResult.image := None;
          ImageResult.modelId := providerToModel !! provider |})
    <$> providers) ;;
  setErrors (fun _ => []) ;;
  setFailedProviders (fun _ => []) ;;
  setTimings (fun _ =>
    fromEntries
      ((fun provider =>
          (provider, {| startTime := Some now;
                        completionTime := None;
                        elapsed := None |}))
       <$> providers)).

(** The requests issued by [providers.map(provider => generateImage(provider,
    providerToModel[provider]))], in selection order.  JavaScript's
    [xs.map(f)] is written [f <$> xs] throughout. *)
Definition dispatch (prompt : string) (providers : list ProviderKey)
    (providerToModel : gmap string string) : list Request :=
  (fun provider =>
     let modelId := providerToModel !! provider in
     {| body_prompt := prompt;
        body_provider := provider;
        body_modelId := modelId |})
  <$> providers.

(** The rest of [startGeneration] behind [await Promise.all(fetchPromises)]:
    the join either fulfils or rejects with the first rejection; the outer
    [catch] logs, and [finally] clears the loading flag. *)
Definition afterJoin (joined : Thrown + unit) : Eff unit :=
  try_finally
    (try_catch
       (match joined with inl e => throw e | inr _ => ret tt end)
       (fun error => ret tt))
    (setIsLoading false).

(** A round in flight: the hook's cells and the promise returned by
    [startGeneration] ([None] while it is pending). *)
Record Round := {
  hook : HookState;
  promise : option (Thrown + unit)
}.

(** The join settles at most once; later rejections are ignored. *)
Definition resume (joined : Thrown + unit) (r : Round) : Round :=
  match promise r with
  | Some _ => r
  | None =>
      match afterJoin joined (hook r) with
      | (s, res) => {| hook := s; promise := Some res |}
      end
  end.

Definition begin (providers : list ProviderKey)
    (providerToModel : gmap string string) (now : Z) (s0 : HookState) : Round :=
  match prologue providers providerToModel now s0 with
  | (s, inr _) => {| hook := s; promise := None |}
  | (s, inl e) => resume (inl e) {| hook := s; promise := None |}
  end.

(** One endpoint call settles: its [generateImage] runs to its end; if that
    promise rejected, [Promise.all] rejects. *)
Definition settle (now : Z) (r : Round) (c : Call) : Round :=
  match generateImage now (body_provider (request c))
          (body_modelId (request c)) (outcome c) (settledAt c) (hook r) with
  | (s, inr _) => {| hook := s; promise := promise r |}
  | (s, inl e) => resume (inl e) {| hook := s; promise := promise r |}
  end.

(** The round after the calls [settled] have settled, in that order. *)
Definition during (providers : list ProviderKey)
    (providerToModel : gmap string string) (now : Z) (settled : list Call)
    (s0 : HookState) : Round :=
  foldl (settle now) (begin providers providerToModel now s0) settled.

(** The round once every call of [calls] has settled, in that order, and
    the join has resumed [startGeneration]. *)
Definition startGeneration (providers : list ProviderKey)
    (providerToModel : gmap string string) (now : Z) (calls : list Call)
    (s0 : HookState) : Round :=
  resume (inr tt) (during providers providerToModel now calls s0).

(** [calls] is a complete run of the round for [prompt], [providers] and
    [providerToModel]: every dispatched request settles exactly once, in
    any order. *)
Definition Schedule (prompt : string) (providers : list ProviderKey)
    (providerToModel : gmap string string) (calls : list Call) : Prop :=
  request <$> calls ≡ₚ dispatch prompt providers providerToModel.

(** ** Views of the state *)

Definition slots (p : ProviderKey) (s : HookState) : list ImageResult.t :=
  filter (fun item => ImageResult.provider item = p) (images s).

Definition hasImage (p : ProviderKey) (s : HookState) : Prop :=
  ∃ item, item ∈ slots p s ∧ ImageResult.image item ≠ None.

Definition failed (p : ProviderKey) (s : HookState) : Prop :=
  p ∈ failedProviders s.

Definition namedInErrors (p : ProviderKey) (s : HookState) : Prop :=
  ∃ e, e ∈ errors s ∧ ImageError.provider e = p.

(** How [generateImage] reads an outcome: a failure with its message, or a
    success with the image the body carries, if any. *)
Definition verdict (o : FetchOutcome) : string + option string :=
  match o with
  | Rejects err => inl (message_of err)
  | Responds r => if ok r then inr (data_image (data r))
                  else inl (error_or_status r)
  end.

Definition fails (c : Call) : bool :=
  match verdict (outcome c) with inl _ => true | inr _ => false end.

Definition provider_of (c : Call) : ProviderKey := body_provider (request c).

Definition freshTiming (now : Z) : ProviderTiming :=
  {| startTime := Some now; completionTime := None; elapsed := None |}.

Definition doneTiming (now t : Z) : ProviderTiming :=
  {| startTime := Some now; completionTime := Some t; elapsed := Some (t - now) |}.

(** ** What one settled call does to the state *)

Definition overwrite (p : ProviderKey) (img m : option string)
    (item : ImageResult.t) : ImageResult.t :=
  if decide (ImageResult.provider item = p)
  then {| ImageResult.provider := ImageResult.provider item;
          ImageResult.image := img;
          ImageResult.modelId := m |}
  else item.

Definition onSuccess (now : Z) (p : ProviderKey) (m img : option string)
    (t : Z) (s : HookState) : HookState :=
  {| images := overwrite p img m <$> images s;
     errors := errors s;
     timings := <[p := doneTiming now t]> (timings s);
     failedProviders := failedProviders s;
     isLoading := isLoading s |}.

Definition onFailure (p : ProviderKey) (m : option string) (msg : string)
    (s : HookState) : HookState :=
  {| images := overwrite p None m <$> images s;
     errors := errors s ++ [ {| ImageError.provider := p;
                                ImageError.message := msg |} ];
     timings := timings s;
     failedProviders := failedProviders s ++ [p];
     isLoading := isLoading s |}.

Definition step (now : Z) (s : HookState) (c : Call) : HookState :=
  match verdict (outcome c) with
  | inl msg => onFailure (provider_of c) (body_modelId (request c)) msg s
  | inr img =>
      onSuccess now (provider_of c) (body_modelId (request c)) img
        (settledAt c) s
  end.

Definition initial (providers : list ProviderKey)
    (providerToModel : gmap string string) (now : Z) : HookState :=
  {| images := (fun p => {| ImageResult.provider := p;
                            ImageResult.image := None;
                            ImageResult.modelId := providerToModel !! p |})
               <$> providers;
     errors := [];
     timings := fromEntries ((fun p => (p, freshTiming now)) <$> providers);
     failedProviders := [];
     isLoading := true |}.

Definition loaded (s : HookState) : HookState :=
  {| images := images s; errors := errors s; timings := timings s;
     failedProviders := failedProviders s; isLoading := false |}.

(** The image a settled call leaves in its provider's slot. *)
Definition resultImage (c : Call) : option string :=
  match verdict (outcome c) with
  | inl _ => None
  | inr img => img
  end.

(** ** Concrete rounds *)

Definition idle : HookState :=
  {| images := []; errors := []; timings := ∅; failedProviders := [];
     isLoading := false |}.

Definition call (prompt : string) (p : ProviderKey) (m : option string)
    (o : FetchOutcome) (t : Z) : Call :=
  {| request := {| body_prompt := prompt; body_provider := p;
                   body_modelId := m |};
     outcome := o; settledAt := t |}.

Definition success (img : option string) : FetchOutcome :=
  Responds {| status := 200;
              data := {| data_error := None; data_image := img |} |}.

(** The end-to-end scenario: [beta] rejects first, [alpha] succeeds later. *)
Definition scenario_providers : list ProviderKey := ["alpha"; "beta"].
Definition scenario_models : gmap string string :=
  {[ "alpha" := "m1"; "beta" := "m2" ]}.
Definition scenario_calls (now : Z) : list Call :=
  [ call "a cat" "beta" (Some "m2") (Rejects (ErrorObject "rate limited"))
      (now + 10);
    call "a cat" "alpha" (Some "m1") (success (Some "url1")) (now + 50) ].

(** A round of one provider whose endpoint answers 200 without an image. *)
Definition bare_models : gmap string string := {[ "alpha" := "m1" ]}.
Definition bare_calls : list Call :=
  [ call "a cat" "alpha" (Some "m1") (success None) 1040 ].

(** A round in which the same provider is selected twice. *)
Definition twice_calls : list Call :=
  [ call "a cat" "alpha" (Some "m1") (success (Some "url1")) 1040;
    call "a cat" "alpha" (Some "m1") (success (Some "url2")) 1050 ].

(** The state a previous round for [gamma] left behind. *)
Definition leftover : HookState :=
  {| images := [ {| ImageResult.provider := "gamma";
                    ImageResult.image := Some "old";
                    ImageResult.modelId := Some "g1" |} ];
     errors := [];
     timings := {[ "gamma" := doneTiming 0 7 ]};
     failedProviders := [];
     isLoading := false |}.

(** ** The two properties that do not hold as the specification words them *)

(** Completeness: every selected provider has exactly one image slot and
    one timing slot, and is in exactly one of the providers with an image
    and the failed providers. *)
Definition Completeness (providers : list ProviderKey)
    (p2m : gmap string string) (now : Z) (calls : list Call)
    (s0 : HookState) : Prop :=
  ∀ p, p ∈ providers ->
    length (slots p (hook (startGeneration providers p2m now calls s0))) = 1%nat ∧
    is_Some (timings (hook (startGeneration providers p2m now calls s0)) !! p) ∧
    ((hasImage p (hook (startGeneration providers p2m now calls s0)) ∧
      ¬ failed p (hook (startGeneration providers p2m now calls s0))) ∨
     (¬ hasImage p (hook (startGeneration providers p2m now calls s0)) ∧
      failed p (hook (startGeneration providers p2m now calls s0)))).

(** Frame: the image slots and the timing slot of a provider outside the
    selection are what the previous round left. *)
Definition OutsideSelectionKept (providers : list ProviderKey)
    (p2m : gmap string string) (now : Z) (calls : list Call)
    (s0 : HookState) : Prop :=
  ∀ p, p ∉ providers ->
    slots p (hook (startGeneration providers p2m now calls s0)) = slots p s0 ∧
    timings (hook (startGeneration providers p2m now calls s0)) !! p =
      timings s0 !! p.


(** ** Further views of a round *)

(** The Generation Error a failed call appends. *)
Definition failure_of (c : Call) : ImageError.t :=
  {| ImageError.provider := provider_of c;
     ImageError.message := match verdict (outcome c) with
                           | inl msg => msg
                           | inr _ => ""
                           end |}.

(** What a timing slot of provider [p] can hold in the round dispatched at
    [now] once the calls [settled] have settled: the slot of the prologue,
    or the slot written by a successful call of [p]. *)
Definition timingOf (now : Z) (settled : list Call) (p : ProviderKey)
    (tm : ProviderTiming) : Prop :=
  tm = freshTiming now ∨
  ∃ c, c ∈ settled ∧ provider_of c = p ∧ fails c = false ∧
       tm = doneTiming now (settledAt c).


(** * The submit handler of [InputCapture] ([components/input/Input.tsx])

    The component keeps the user's credits in a [useState] cell
    ([undefined] when the page passes none); [toolConfig.credits] is the
    price of one generation. Credit counts are integers. [generateResponse]
    is an external hook: its promise fulfils or rejects. *)

(** How a call of [handleSubmit] ends. *)
Inductive Submission :=
  | Reloaded                        (* [window.location.reload()], return *)
  | Generated                       (* [generateResponse] fulfilled *)
  | GenerationThrew (e : Thrown).   (* [generateResponse] rejected *)

(** The updater passed to [setCredits]:
    [prevCredits ? prevCredits - toolConfig.credits : undefined]. *)
Definition updateCredits (toolCredits : Z) (prevCredits : option Z) : option Z :=
  match prevCredits with
  | Some p => if decide (p = 0) then None else Some (p - toolCredits)
  | None => None
  end.

(** [handleSubmit], rendered with [credits], with the outcome [gen] of
    [generateResponse], acting on the credits cell [prev]. *)
Definition handleSubmit (toolCredits credits : option Z) (gen : Thrown + unit)
    (prev : option Z) : option Z * Submission :=
  let tracked :=
    match credits, toolCredits with
    | Some _, Some _ => true
    | _, _ => false
    end in
  let short :=
    match credits, toolCredits with
    | Some c, Some k => (c <? k) || (c <? 1)
    | _, _ => false
    end in
  if tracked && short then (prev, Reloaded)
  else
    match gen with
    | inl e => (prev, GenerationThrew e)
    | inr _ =>
        match credits, toolCredits with
        | Some _, Some k => (updateCredits k prev, Generated)
        | _, _ => (prev, Generated)
        end
    end.

(** The promise of [generateResponse] fulfilled. *)
Definition fulfils (gen : Thrown + unit) : bool :=
  match gen with inl _ => false | inr _ => true end.

(** Submits made one after the other, each from the render that shows the
    credits the previous one left: the number of generations that
    completed and the credits cell at the end. A reload ends the session. *)
Fixpoint session (toolCredits credits : option Z)
    (gens : list (Thrown + unit)) : nat * option Z :=
  match gens with
  | [] => (0%nat, credits)
  | gen :: rest =>
      match handleSubmit toolCredits credits gen credits with
      | (_, Reloaded) => (0%nat, credits)
      | (credits', GenerationThrew _) => session toolCredits credits' rest
      | (credits', Generated) =>
          let '(n, final) := session toolCredits credits' rest in
          (S n, final)
      end
  end.

(** ** Unfolding the monadic code *)

Lemma generateImage_run now p m o t s :
  generateImage now p m o t s =
  (match verdict o with
   | inl msg => onFailure p m msg s
   | inr img => onSuccess now p m img t s
   end, inr tt).
Proof.
  destruct o as [e | r]; cbn.
  - reflexivity.
  - unfold generateImage, try_catch, mbind, Eff_bind, bind; cbn.
    destruct (ok r); reflexivity.
Qed.

Lemma settle_run now r c :
  settle now r c = {| hook := step now (hook r) c; promise := promise r |}.
Proof. unfold settle. rewrite generateImage_run. reflexivity. Qed.

Lemma begin_run providers p2m now s0 :
  begin providers p2m now s0 =
  {| hook := initial providers p2m now; promise := None |}.
Proof. reflexivity. Qed.

Lemma during_run providers p2m now settled s0 :
  during providers p2m now settled s0 =
  {| hook := foldl (step now) (initial providers p2m now) settled;
     promise := None |}.
Proof.
  unfold during. rewrite begin_run.
  generalize (initial providers p2m now) as s.
  induction settled as [| c cs IH]; intros s; cbn; [reflexivity |].
  rewrite settle_run. cbn. apply IH.
Qed.

Lemma startGeneration_run providers p2m now calls s0 :
  startGeneration providers p2m now calls s0 =
  {| hook := loaded (foldl (step now) (initial providers p2m now) calls);
     promise := Some (inr tt) |}.
Proof. unfold startGeneration. rewrite during_run. reflexivity. Qed.

(** ** The error message a failure records *)

Example message_of_error_member :
  error_or_status {| status := 429;
                     data := {| data_error := Some "rate limited";
                                data_image := None |} |} = "rate limited".
Proof. reflexivity. Qed.

Example message_of_status_alone :
  error_or_status {| status := 503;
                     data := {| data_error := Some "";
                                data_image := None |} |} = "Server error: 503".
Proof. reflexivity. Qed.

Example message_of_thrown_value :
  errors (generateImage 1000 "beta" (Some "m2") (Rejects OtherValue) 1010
            idle).1 =
  [ {| ImageError.provider := "beta";
       ImageError.message := "An unexpected error occurred" |} ].
Proof. reflexivity. Qed.

(** ** Field by field: one step *)

Lemma step_isLoading now s c : isLoading (step now s c) = isLoading s.
Proof. unfold step. destruct (verdict (outcome c)); reflexivity. Qed.

Lemma step_failedProviders now s c :
  failedProviders (step now s c) =
  failedProviders s ++ (if fails c then [provider_of c] else []).
Proof.
  unfold step, fails. destruct (verdict (outcome c)); cbn; [done |].
  by rewrite app_nil_r.
Qed.

Lemma step_error_names now s c :
  ImageError.provider <$> errors (step now s c) =
  (ImageError.provider <$> errors s) ++ (if fails c then [provider_of c] else []).
Proof.
  unfold step, fails. destruct (verdict (outcome c)); cbn.
  - by rewrite fmap_app.
  - by rewrite app_nil_r.
Qed.

Lemma overwrite_provider p img m item :
  ImageResult.provider (overwrite p img m item) = ImageResult.provider item.
Proof. unfold overwrite. case_decide; reflexivity. Qed.

Lemma step_images now s c :
  images (step now s c) =
  overwrite (provider_of c) (resultImage c) (body_modelId (request c))
    <$> images s.
Proof. unfold step, resultImage. destruct (verdict (outcome c)); reflexivity. Qed.

Lemma step_image_providers now s c :
  ImageResult.provider <$> images (step now s c) =
  ImageResult.provider <$> images s.
Proof.
  rewrite step_images, <- list_fmap_compose.
  apply list_fmap_ext. intros i x _. apply overwrite_provider.
Qed.

Lemma slots_overwrite_other p q img m (l : list ImageResult.t) :
  q ≠ p ->
  filter (fun item => ImageResult.provider item = p) (overwrite q img m <$> l) =
  filter (fun item => ImageResult.provider item = p) l.
Proof.
  intros Hne. induction l as [| x l IH]; [reflexivity |].
  rewrite fmap_cons, !filter_cons, overwrite_provider, IH.
  case_decide as Hx; [| reflexivity].
  unfold overwrite. rewrite decide_False by congruence. reflexivity.
Qed.

Lemma slots_overwrite_same p img m (l : list ImageResult.t) :
  filter (fun item => ImageResult.provider item = p) (overwrite p img m <$> l) =
  (fun _ => {| ImageResult.provider := p; ImageResult.image := img;
               ImageResult.modelId := m |})
  <$> filter (fun item => ImageResult.provider item = p) l.
Proof.
  induction l as [| x l IH]; [reflexivity |].
  rewrite fmap_cons, !filter_cons, overwrite_provider, IH.
  case_decide as Hx; [| reflexivity].
  unfold overwrite. rewrite decide_True by done. rewrite Hx. reflexivity.
Qed.

Lemma slots_step_other now s c p :
  provider_of c ≠ p -> slots p (step now s c) = slots p s.
Proof. intros. unfold slots. rewrite step_images. by apply slots_overwrite_other. Qed.

Lemma slots_step_same now s c :
  slots (provider_of c) (step now s c) =
  (fun _ => {| ImageResult.provider := provider_of c;
               ImageResult.image := resultImage c;
               ImageResult.modelId := body_modelId (request c) |})
  <$> slots (provider_of c) s.
Proof. unfold slots. rewrite step_images. apply slots_overwrite_same. Qed.

Lemma timings_step_fails now s c :
  fails c = true -> timings (step now s c) = timings s.
Proof. unfold step, fails. destruct (verdict (outcome c)); [reflexivity | discriminate]. Qed.

Lemma timings_step_other now s c p :
  provider_of c ≠ p -> timings (step now s c) !! p = timings s !! p.
Proof.
  intros Hne. unfold step. destruct (verdict (outcome c)); cbn; [reflexivity |].
  by rewrite lookup_insert_ne.
Qed.

Lemma timings_step_succeeds now s c :
  fails c = false ->
  timings (step now s c) !! provider_of c = Some (doneTiming now (settledAt c)).
Proof.
  unfold step, fails. destruct (verdict (outcome c)); [discriminate |].
  intros _. cbn. by rewrite lookup_insert_eq.
Qed.

(** ** Field by field: a run of steps *)

Lemma run_isLoading now cs s :
  isLoading (foldl (step now) s cs) = isLoading s.
Proof.
  revert s. induction cs as [| c cs IH]; intros s; cbn; [reflexivity |].
  by rewrite IH, step_isLoading.
Qed.

Lemma run_failedProviders now cs s :
  failedProviders (foldl (step now) s cs) =
  failedProviders s ++ (provider_of <$> filter (fun c => fails c = true) cs).
Proof.
  revert s. induction cs as [| c cs IH]; intros s.
  - cbn. by rewrite app_nil_r.
  - cbn [foldl]. rewrite IH, step_failedProviders, filter_cons.
    destruct (fails c) eqn:Hc.
    + rewrite decide_True by done. by rewrite <- app_assoc.
    + rewrite decide_False by done. by rewrite app_nil_r.
Qed.

Lemma run_error_names now cs s :
  ImageError.provider <$> errors (foldl (step now) s cs) =
  (ImageError.provider <$> errors s)
  ++ (provider_of <$> filter (fun c => fails c = true) cs).
Proof.
  revert s. induction cs as [| c cs IH]; intros s.
  - cbn. by rewrite app_nil_r.
  - cbn [foldl]. rewrite IH, step_error_names, filter_cons.
    destruct (fails c) eqn:Hc.
    + rewrite decide_True by done. by rewrite <- app_assoc.
    + rewrite decide_False by done. by rewrite app_nil_r.
Qed.

Lemma run_image_providers now cs s :
  ImageResult.provider <$> images (foldl (step now) s cs) =
  ImageResult.provider <$> images s.
Proof.
  revert s. induction cs as [| c cs IH]; intros s; cbn; [reflexivity |].
  by rewrite IH, step_image_providers.
Qed.

Lemma run_slots_others now cs s p :
  Forall (fun c => provider_of c ≠ p) cs ->
  slots p (foldl (step now) s cs) = slots p s.
Proof.
  intros H. revert s. induction H as [| c cs Hc _ IH]; intros s; cbn; [reflexivity |].
  by rewrite IH, slots_step_other.
Qed.

Lemma run_timings_unless_success now cs s p :
  Forall (fun c => provider_of c = p -> fails c = true) cs ->
  timings (foldl (step now) s cs) !! p = timings s !! p.
Proof.
  intros H. revert s. induction H as [| c cs Hc _ IH]; intros s; cbn; [reflexivity |].
  rewrite IH. destruct (decide (provider_of c = p)) as [Heq | Hne].
  - by rewrite timings_step_fails by auto.
  - by apply timings_step_other.
Qed.

Lemma run_timings_others now cs s p :
  Forall (fun c => provider_of c ≠ p) cs ->
  timings (foldl (step now) s cs) !! p = timings s !! p.
Proof.
  intros H. apply run_timings_unless_success.
  eapply Forall_impl; [exact H |]. intros c Hne Heq. done.
Qed.

Lemma run_timings_dom now cs s p :
  is_Some (timings s !! p) -> is_Some (timings (foldl (step now) s cs) !! p).
Proof.
  revert s. induction cs as [| c cs IH]; intros s Hs; cbn; [done |].
  apply IH. unfold step. destruct (verdict (outcome c)); cbn; [done |].
  rewrite lookup_insert. case_decide; eauto.
Qed.

(** ** The state the prologue leaves *)

Lemma fromEntries_const {V} (v : V) (l : list string) (p : string) :
  fromEntries ((fun q => (q, v)) <$> l) !! p =
  if decide (p ∈ l) then Some v else None.
Proof.
  unfold fromEntries.
  assert (Hgen : forall m : gmap string V,
    foldl (fun m kv => <[kv.1 := kv.2]> m) m ((fun q => (q, v)) <$> l) !! p =
    if decide (p ∈ l) then Some v else m !! p).
  { induction l as [| q l IH]; intros m; cbn [fmap list_fmap foldl].
    - rewrite decide_False; [done | apply not_elem_of_nil].
    - rewrite IH. cbn. destruct (decide (p ∈ l)) as [Hin | Hnin].
      + rewrite decide_True; [done | by right].
      + rewrite lookup_insert. destruct (decide (q = p)) as [-> | Hne].
        * rewrite decide_True; [done | by left].
        * rewrite decide_False; [done |].
          rewrite elem_of_cons. intros [-> | ?]; done. }
  rewrite Hgen. by rewrite lookup_empty.
Qed.

Lemma initial_timings providers p2m now p :
  timings (initial providers p2m now) !! p =
  if decide (p ∈ providers) then Some (freshTiming now) else None.
Proof. apply fromEntries_const. Qed.

Lemma initial_image_providers providers p2m now :
  ImageResult.provider <$> images (initial providers p2m now) = providers.
Proof.
  cbn. rewrite <- list_fmap_compose.
  induction providers as [| q l IH]; cbn; [done |]. by rewrite IH.
Qed.

Lemma initial_slots_absent providers p2m now p :
  p ∉ providers -> slots p (initial providers p2m now) = [].
Proof.
  intros Hnin. unfold slots. cbn [images initial].
  induction providers as [| q l IH]; [reflexivity |].
  rewrite not_elem_of_cons in Hnin. destruct Hnin as [Hne Hl].
  rewrite fmap_cons, filter_cons_False by (cbn; congruence). by apply IH.
Qed.

Lemma initial_slots providers p2m now p :
  NoDup providers -> p ∈ providers ->
  slots p (initial providers p2m now) =
  [ {| ImageResult.provider := p; ImageResult.image := None;
       ImageResult.modelId := p2m !! p |} ].
Proof.
  intros Hnd Hin. induction Hnd as [| q l Hq Hnd IH]; [by apply elem_of_nil in Hin |].
  unfold slots. cbn [images initial]. rewrite fmap_cons.
  destruct (decide (q = p)) as [-> | Hne].
  - rewrite filter_cons_True by done. f_equal.
    apply (initial_slots_absent l p2m now p Hq).
  - rewrite filter_cons_False by (cbn; congruence).
    apply IH. apply elem_of_cons in Hin as [-> | Hin]; done.
Qed.

(** ** Schedules *)

Lemma dispatch_providers prompt providers p2m :
  body_provider <$> dispatch prompt providers p2m = providers.
Proof.
  unfold dispatch. rewrite <- list_fmap_compose.
  induction providers as [| q l IH]; cbn; [done |]. by rewrite IH.
Qed.

Lemma schedule_providers prompt providers p2m calls :
  Schedule prompt providers p2m calls -> provider_of <$> calls ≡ₚ providers.
Proof.
  unfold Schedule. intros H.
  rewrite <- (dispatch_providers prompt providers p2m), <- H.
  by rewrite <- list_fmap_compose.
Qed.

Lemma schedule_provider_in prompt providers p2m calls c :
  Schedule prompt providers p2m calls -> c ∈ calls -> provider_of c ∈ providers.
Proof.
  intros H Hc. rewrite <- (schedule_providers _ _ _ _ H).
  by apply list_elem_of_fmap_2.
Qed.

Lemma schedule_modelId prompt providers p2m calls c :
  Schedule prompt providers p2m calls -> c ∈ calls ->
  body_modelId (request c) = p2m !! provider_of c.
Proof.
  intros H Hc.
  assert (Hr : request c ∈ dispatch prompt providers p2m).
  { rewrite <- H. by apply list_elem_of_fmap_2. }
  unfold dispatch in Hr. apply list_elem_of_fmap in Hr as (q & Hq & _).
  unfold provider_of. rewrite Hq. reflexivity.
Qed.

Lemma schedule_call_of prompt providers p2m calls p :
  Schedule prompt providers p2m calls -> p ∈ providers ->
  ∃ c, c ∈ calls ∧ provider_of c = p.
Proof.
  intros H Hp. rewrite <- (schedule_providers _ _ _ _ H) in Hp.
  apply list_elem_of_fmap in Hp as (c & -> & Hc). eauto.
Qed.

(** With distinct providers, the call of a selected provider splits the
    schedule into calls of other providers before and after it. *)
Lemma schedule_split prompt providers p2m calls c :
  Schedule prompt providers p2m calls -> NoDup providers -> c ∈ calls ->
  ∃ before after,
    calls = before ++ c :: after ∧
    Forall (fun c' => provider_of c' ≠ provider_of c) before ∧
    Forall (fun c' => provider_of c' ≠ provider_of c) after.
Proof.
  intros H Hnd Hc.
  apply list_elem_of_split in Hc as (before & after & ->).
  exists before, after. split; [reflexivity |].
  rewrite <- (schedule_providers _ _ _ _ H) in Hnd.
  rewrite fmap_app, fmap_cons in Hnd.
  apply NoDup_app in Hnd as (_ & Hdisj & Hnd).
  apply NoDup_cons in Hnd as [Hafter _].
  split; apply Forall_forall; intros c' Hc' Heq.
  - apply (Hdisj (provider_of c')); [by apply list_elem_of_fmap_2 |].
    rewrite Heq. by left.
  - apply Hafter. rewrite <- Heq. by apply list_elem_of_fmap_2.
Qed.

(** ** The end of a round, provider by provider *)

Lemma run_slots_unique now before c after s :
  Forall (fun c' => provider_of c' ≠ provider_of c) before ->
  Forall (fun c' => provider_of c' ≠ provider_of c) after ->
  slots (provider_of c) (foldl (step now) s (before ++ c :: after)) =
  (fun _ => {| ImageResult.provider := provider_of c;
               ImageResult.image := resultImage c;
               ImageResult.modelId := body_modelId (request c) |})
  <$> slots (provider_of c) s.
Proof.
  intros Hb Ha. rewrite foldl_app. cbn [foldl].
  rewrite run_slots_others by done.
  rewrite slots_step_same. by rewrite run_slots_others.
Qed.

Lemma run_timings_unique now before c after s :
  Forall (fun c' => provider_of c' ≠ provider_of c) before ->
  Forall (fun c' => provider_of c' ≠ provider_of c) after ->
  timings (foldl (step now) s (before ++ c :: after)) !! provider_of c =
  if fails c then timings s !! provider_of c
  else Some (doneTiming now (settledAt c)).
Proof.
  intros Hb Ha. rewrite foldl_app. cbn [foldl].
  rewrite run_timings_others by done.
  destruct (fails c) eqn:Hc.
  - rewrite timings_step_fails by done. by apply run_timings_others.
  - by apply timings_step_succeeds.
Qed.

Lemma run_failed_unique now before c after s :
  Forall (fun c' => provider_of c' ≠ provider_of c) before ->
  Forall (fun c' => provider_of c' ≠ provider_of c) after ->
  failedProviders s = [] ->
  provider_of c ∈ failedProviders (foldl (step now) s (before ++ c :: after))
  <-> fails c = true.
Proof.
  intros Hb Ha Hs. rewrite run_failedProviders, Hs, app_nil_l.
  rewrite list_elem_of_fmap. split.
  - intros (c' & Heq & Hin). apply list_elem_of_filter in Hin as [Hf Hin].
    apply elem_of_app in Hin as [Hin | Hin].
    + rewrite Forall_forall in Hb. by destruct (Hb c' Hin).
    + apply elem_of_cons in Hin as [-> | Hin]; [done |].
      rewrite Forall_forall in Ha. by destruct (Ha c' Hin).
  - intros Hf. exists c. split; [done |]. apply list_elem_of_filter.
    split; [done |]. apply elem_of_app. right. by left.
Qed.

(** ** Reset *)

(** C5. [resetState] is idempotent: from any state, resetting twice gives
    the state one reset gives, which has no image results, no generation
    errors, the Provider Registry's empty record as timings, no failed
    provider and [isLoading = false]; and [resetState] does not throw. *)
Theorem resetState_idempotent (empty : gmap string ProviderTiming)
    (s : HookState) :
  (resetState empty (resetState empty s).1).1 = (resetState empty s).1 ∧
  (resetState empty s).1 =
    {| images := []; errors := []; timings := empty;
       failedProviders := []; isLoading := false |} ∧
  (resetState empty s).2 = inr tt.
Proof. repeat split. Qed.

(** ** Failures and their errors *)

Lemma run_names_agree now cs s :
  ImageError.provider <$> errors s = failedProviders s ->
  ImageError.provider <$> errors (foldl (step now) s cs) =
  failedProviders (foldl (step now) s cs).
Proof. intros H. by rewrite run_error_names, run_failedProviders, H. Qed.

Lemma names_agree_iff s p :
  ImageError.provider <$> errors s = failedProviders s ->
  failed p s <-> namedInErrors p s.
Proof.
  intros H. unfold failed, namedInErrors. rewrite <- H, list_elem_of_fmap.
  split; intros (e & He1 & He2); exists e; split; done.
Qed.

Lemma round_names_agree providers p2m now settled p :
  failed p (loaded (foldl (step now) (initial providers p2m now) settled)) <->
  namedInErrors p (loaded (foldl (step now) (initial providers p2m now) settled)).
Proof.
  apply names_agree_iff. cbn [loaded errors failedProviders].
  by apply run_names_agree.
Qed.

(** C3. At every point of a round (after the prologue and after any
    number of calls have settled, in any order) and after it, a provider is
    in the Failed-Provider list if and only if a Generation Error entry
    names it, whatever state the previous round left. *)
Theorem failed_iff_named_in_errors providers p2m now
    (settled : list Call) (s0 : HookState) (p : ProviderKey) :
  (failed p (hook (during providers p2m now settled s0)) <->
   namedInErrors p (hook (during providers p2m now settled s0))) ∧
  (failed p (hook (startGeneration providers p2m now settled s0)) <->
   namedInErrors p (hook (startGeneration providers p2m now settled s0))).
Proof.
  rewrite startGeneration_run, during_run. cbn [hook].
  split; apply names_agree_iff; [| cbn [loaded errors failedProviders]];
    by apply run_names_agree.
Qed.

(** ** The loading flag and the join *)

(** C4. [isLoading] is true as soon as the prologue of [startGeneration]
    has run, stays true (with the promise of [startGeneration] pending)
    after any number of the round's calls have settled, all of them
    included, and is false once the join has resumed [startGeneration]. *)
Theorem isLoading_until_join providers p2m now (calls : list Call)
    (s0 : HookState) :
  isLoading (hook (begin providers p2m now s0)) = true ∧
  (∀ k : nat,
     isLoading (hook (during providers p2m now (take k calls) s0)) = true ∧
     promise (during providers p2m now (take k calls) s0) = None) ∧
  isLoading (hook (startGeneration providers p2m now calls s0)) = false.
Proof.
  split; [reflexivity |]. split; [| by rewrite startGeneration_run].
  intros k. rewrite during_run. cbn [hook promise].
  split; [| reflexivity]. by rewrite run_isLoading.
Qed.

(** ** Containment of failures *)

(** C6. Whatever the outcome of its endpoint call (a rejection with an
    [Error] or with another value, an error response, a success), the
    promise of [generateImage] fulfils; a rejection or an error response is
    appended to the Generation Errors and to the Failed-Provider list; in
    every round, whatever the outcomes and their order, the join has not
    failed while calls settle and the promise of [startGeneration] fulfils
    once they all have. *)
Theorem failures_contained now (p : ProviderKey) (m : option string)
    (o : FetchOutcome) (t : Z) (s : HookState) providers p2m
    (calls : list Call) (s0 : HookState) :
  (generateImage now p m o t s).2 = inr tt ∧
  (∀ err, o = Rejects err ->
     errors (generateImage now p m o t s).1 =
       errors s ++ [ {| ImageError.provider := p;
                        ImageError.message := message_of err |} ] ∧
     failedProviders (generateImage now p m o t s).1 =
       failedProviders s ++ [p]) ∧
  (∀ r, o = Responds r -> ok r = false ->
     errors (generateImage now p m o t s).1 =
       errors s ++ [ {| ImageError.provider := p;
                        ImageError.message := error_or_status r |} ] ∧
     failedProviders (generateImage now p m o t s).1 =
       failedProviders s ++ [p]) ∧
  (∀ k : nat, promise (during providers p2m now (take k calls) s0) = None) ∧
  promise (startGeneration providers p2m now calls s0) = Some (inr tt).
Proof.
  rewrite generateImage_run, startGeneration_run.
  split; [reflexivity |]. split; [| split; [| split]].
  - intros err ->. cbn. done.
  - intros r -> Hr. cbn. rewrite Hr. done.
  - intros k. by rewrite during_run.
  - reflexivity.
Qed.

(** ** The end of a round for a provider selected once *)

Lemma round_end prompt providers p2m now calls s0 c :
  Schedule prompt providers p2m calls -> NoDup providers -> c ∈ calls ->
  slots (provider_of c) (hook (startGeneration providers p2m now calls s0)) =
    [ {| ImageResult.provider := provider_of c;
         ImageResult.image := resultImage c;
         ImageResult.modelId := p2m !! provider_of c |} ] ∧
  timings (hook (startGeneration providers p2m now calls s0)) !! provider_of c =
    Some (if fails c then freshTiming now
          else doneTiming now (settledAt c)) ∧
  (failed (provider_of c) (hook (startGeneration providers p2m now calls s0))
   <-> fails c = true).
Proof.
  intros Hs Hnd Hc.
  pose proof (schedule_provider_in _ _ _ _ _ Hs Hc) as Hp.
  pose proof (schedule_modelId _ _ _ _ _ Hs Hc) as Hm.
  destruct (schedule_split _ _ _ _ _ Hs Hnd Hc) as (before & after & -> & Hb & Ha).
  rewrite startGeneration_run. cbn [hook].
  unfold failed, slots. cbn [loaded images timings failedProviders].
  fold (slots (provider_of c)
          (foldl (step now) (initial providers p2m now) (before ++ c :: after))).
  rewrite run_slots_unique, run_timings_unique by done.
  rewrite initial_slots, initial_timings by done.
  rewrite decide_True by done. rewrite Hm.
  split; [reflexivity |]. split; [by destruct (fails c) |].
  by apply run_failed_unique.
Qed.

(** ** Timings *)

Lemma run_startTime now cs s p :
  (∃ tm, timings s !! p = Some tm ∧ startTime tm = Some now) ->
  ∃ tm, timings (foldl (step now) s cs) !! p = Some tm ∧ startTime tm = Some now.
Proof.
  revert s. induction cs as [| c cs IH]; intros s Hs; cbn [foldl]; [done |].
  apply IH. unfold step. destruct (verdict (outcome c)); cbn; [done |].
  rewrite lookup_insert. case_decide; [| done].
  eexists. split; reflexivity.
Qed.

(** C7. The prologue sets the timing slot of every selected provider to
    the one dispatch instant [now], without completion fields; every
    selected provider's slot keeps [startTime = now] whichever calls have
    settled; a successful call that settles at [t] sets its provider's slot
    to [startTime = now], [completionTime = t], [elapsed = t - now]; and at
    the end of a round over distinct providers, every provider whose call
    succeeded has exactly that slot, so its elapsed time is counted from
    the dispatch of the round. *)
Theorem shared_dispatch_instant prompt providers p2m now (calls : list Call)
    (s0 : HookState) :
  Schedule prompt providers p2m calls -> NoDup providers ->
  (∀ p, p ∈ providers ->
     timings (hook (begin providers p2m now s0)) !! p =
       Some {| startTime := Some now; completionTime := None;
               elapsed := None |}) ∧
  (∀ (settled : list Call) p, p ∈ providers ->
     ∃ tm, timings (hook (during providers p2m now settled s0)) !! p = Some tm ∧
           startTime tm = Some now) ∧
  (∀ q m r t s, ok r = true ->
     timings (generateImage now q m (Responds r) t s).1 !! q =
       Some {| startTime := Some now; completionTime := Some t;
               elapsed := Some (t - now) |}) ∧
  (∀ c, c ∈ calls -> fails c = false ->
     timings (hook (startGeneration providers p2m now calls s0))
       !! provider_of c =
     Some {| startTime := Some now; completionTime := Some (settledAt c);
             elapsed := Some (settledAt c - now) |}).
Proof.
  intros Hs Hnd.
  assert (Hinit : ∀ p, p ∈ providers ->
            timings (initial providers p2m now) !! p = Some (freshTiming now)).
  { intros p Hp. rewrite initial_timings. by rewrite decide_True. }
  split; [exact Hinit |]. split; [| split].
  - intros settled p Hp. rewrite during_run. cbn [hook].
    apply run_startTime. exists (freshTiming now). split; [by apply Hinit | done].
  - intros q m r t s Hr. rewrite generateImage_run. cbn. rewrite Hr. cbn.
    by rewrite lookup_insert_eq.
  - intros c Hc Hok.
    destruct (round_end _ _ _ now _ s0 _ Hs Hnd Hc) as (_ & Ht & _).
    rewrite Ht, Hok. reflexivity.
Qed.

(** C8. The failure path of [generateImage] (a rejection or an error
    response) leaves the timings as they were; and at the end of a round,
    a provider whose every call failed (its one call, when the providers
    are distinct) has the timing slot the prologue gave it: [startTime =
    now], no [completionTime], no [elapsed]. *)
Theorem no_completion_on_failure prompt providers p2m now
    (calls : list Call) (s0 : HookState) :
  Schedule prompt providers p2m calls ->
  (∀ q m o t s msg, verdict o = inl msg ->
     timings (generateImage now q m o t s).1 = timings s) ∧
  (∀ p, p ∈ providers ->
     (∀ c, c ∈ calls -> provider_of c = p -> fails c = true) ->
     timings (hook (startGeneration providers p2m now calls s0)) !! p =
       Some {| startTime := Some now; completionTime := None;
               elapsed := None |}).
Proof.
  intros Hs. split.
  - intros q m o t s msg Hv. rewrite generateImage_run, Hv. reflexivity.
  - intros p Hp Hall.
    rewrite startGeneration_run. cbn [hook loaded timings].
    rewrite run_timings_unless_success.
    + rewrite initial_timings. by rewrite decide_True.
    + apply Forall_forall. intros c Hc Heq. by apply Hall.
Qed.

(** C10. A 2xx response whose body has no image makes [generateImage]
    set every slot of its provider to [image = absent], record
    [completionTime] and [elapsed], and leave the Generation Errors and the
    Failed-Provider list as they were; at the end of a round over distinct
    providers such a provider has one slot without image, a completed
    timing, no error naming it, and is not a failed provider. *)
Theorem success_without_image prompt providers p2m now (calls : list Call)
    (s0 : HookState) (r : Response) :
  Schedule prompt providers p2m calls -> NoDup providers ->
  ok r = true -> data_image (data r) = None ->
  (∀ q m t s,
     (∀ item, item ∈ slots q (generateImage now q m (Responds r) t s).1 ->
        ImageResult.image item = None) ∧
     timings (generateImage now q m (Responds r) t s).1 !! q =
       Some {| startTime := Some now; completionTime := Some t;
               elapsed := Some (t - now) |} ∧
     errors (generateImage now q m (Responds r) t s).1 = errors s ∧
     failedProviders (generateImage now q m (Responds r) t s).1 =
       failedProviders s) ∧
  (∀ c, c ∈ calls -> outcome c = Responds r ->
     slots (provider_of c) (hook (startGeneration providers p2m now calls s0)) =
       [ {| ImageResult.provider := provider_of c; ImageResult.image := None;
            ImageResult.modelId := p2m !! provider_of c |} ] ∧
     timings (hook (startGeneration providers p2m now calls s0))
       !! provider_of c =
       Some {| startTime := Some now; completionTime := Some (settledAt c);
               elapsed := Some (settledAt c - now) |} ∧
     ¬ hasImage (provider_of c)
         (hook (startGeneration providers p2m now calls s0)) ∧
     ¬ failed (provider_of c)
         (hook (startGeneration providers p2m now calls s0)) ∧
     ¬ namedInErrors (provider_of c)
         (hook (startGeneration providers p2m now calls s0))).
Proof.
  intros Hs Hnd Hok Himg. split.
  - intros q m t s. rewrite generateImage_run. cbn [verdict].
    rewrite Hok, Himg. cbn [fst]. repeat split.
    + intros item Hin. unfold slots in Hin. cbn [onSuccess images] in Hin.
      rewrite slots_overwrite_same in Hin.
      apply list_elem_of_fmap in Hin as (x & -> & _). reflexivity.
    + cbn. by rewrite lookup_insert_eq.
  - intros c Hc Ho.
    assert (Hv : verdict (outcome c) = inr None).
    { rewrite Ho. cbn. by rewrite Hok, Himg. }
    assert (Hf : fails c = false) by (unfold fails; by rewrite Hv).
    assert (Hi : resultImage c = None) by (unfold resultImage; by rewrite Hv).
    destruct (round_end _ _ _ now _ s0 _ Hs Hnd Hc) as (Hsl & Ht & Hfl).
    rewrite Hf in Ht. rewrite Hi in Hsl.
    assert (Hnf : ¬ failed (provider_of c)
                    (hook (startGeneration providers p2m now calls s0))).
    { rewrite Hfl, Hf. discriminate. }
    repeat split; [exact Hsl | exact Ht | | exact Hnf |].
    + intros (item & Hin & Hne). rewrite Hsl in Hin.
      apply list_elem_of_singleton in Hin as ->. by apply Hne.
    + intros Hn. apply Hnf. revert Hn. rewrite startGeneration_run. cbn [hook].
      apply round_names_agree.
Qed.

(** ** Which slots exist *)

Lemma slots_absent s p :
  p ∉ ImageResult.provider <$> images s -> slots p s = [].
Proof.
  unfold slots. induction (images s) as [| x l IH]; [reflexivity |].
  rewrite fmap_cons, not_elem_of_cons. intros [Hne Hl].
  rewrite filter_cons_False by congruence. by apply IH.
Qed.

Lemma run_timings_selection now (providers : list ProviderKey) cs s :
  Forall (fun c => provider_of c ∈ providers) cs ->
  (∀ p, is_Some (timings s !! p) <-> p ∈ providers) ->
  ∀ p, is_Some (timings (foldl (step now) s cs) !! p) <-> p ∈ providers.
Proof.
  intros Hcs Hs p. split.
  - intros Hsome. destruct (decide (p ∈ providers)) as [| Hnin]; [done |].
    apply Hs. rewrite <- (run_timings_others now cs s p); [done |].
    eapply Forall_impl; [exact Hcs |]. cbn. intros c Hc Heq.
    apply Hnin. by rewrite <- Heq.
  - intros Hp. apply run_timings_dom. by apply Hs.
Qed.

Lemma initial_timings_selection providers p2m now p :
  is_Some (timings (initial providers p2m now) !! p) <-> p ∈ providers.
Proof.
  rewrite initial_timings. case_decide; split; done.
Qed.

Lemma selection_after now prompt providers p2m calls settled :
  Schedule prompt providers p2m calls -> settled ⊆ calls ->
  ImageResult.provider
    <$> images (foldl (step now) (initial providers p2m now) settled)
  = providers ∧
  (∀ p, is_Some (timings (foldl (step now) (initial providers p2m now) settled)
                   !! p) <-> p ∈ providers).
Proof.
  intros Hs Hsub. split.
  - by rewrite run_image_providers, initial_image_providers.
  - apply run_timings_selection.
    + apply Forall_forall. intros c Hc.
      eapply schedule_provider_in; [exact Hs |]. by apply Hsub.
    + intros p. apply initial_timings_selection.
Qed.

(** ** Frame of a round *)

(** C2, as the code has it. The prologue replaces the image slots and the
    timing record wholesale, whatever the previous round left: right after
    it the image list is one fresh slot per selected provider, in selection
    order ([image] absent, [modelId = providerToModel[provider]]), and the
    timing record holds [{startTime: now}] for every selected provider and
    nothing else. At every point of the round and after it, the image
    slots are those of the selected providers, in selection order, the
    timing record has a slot for a provider exactly when it is selected,
    and a provider outside the selection has no image slot and no timing
    slot. *)
Theorem selection_replaces_slots prompt providers p2m now
    (calls : list Call) (s0 : HookState) :
  Schedule prompt providers p2m calls ->
  images (hook (begin providers p2m now s0)) =
    (fun p => {| ImageResult.provider := p; ImageResult.image := None;
                 ImageResult.modelId := p2m !! p |}) <$> providers ∧
  (∀ p, timings (hook (begin providers p2m now s0)) !! p =
        if decide (p ∈ providers)
        then Some {| startTime := Some now; completionTime := None;
                     elapsed := None |}
        else None) ∧
  (∀ k : nat,
     ImageResult.provider
       <$> images (hook (during providers p2m now (take k calls) s0))
     = providers ∧
     (∀ p, is_Some (timings (hook (during providers p2m now (take k calls) s0))
                      !! p) <-> p ∈ providers) ∧
     (∀ p, p ∉ providers ->
        slots p (hook (during providers p2m now (take k calls) s0)) = [] ∧
        timings (hook (during providers p2m now (take k calls) s0)) !! p
          = None)) ∧
  (ImageResult.provider
     <$> images (hook (startGeneration providers p2m now calls s0))
   = providers ∧
   ∀ p, is_Some (timings (hook (startGeneration providers p2m now calls s0))
                   !! p) <-> p ∈ providers) ∧
  (∀ p, p ∉ providers ->
     slots p (hook (startGeneration providers p2m now calls s0)) = [] ∧
     timings (hook (startGeneration providers p2m now calls s0)) !! p = None).
Proof.
  intros Hs.
  pose proof (selection_after now _ _ _ _ calls Hs (reflexivity _)) as [Hi Ht].
  split; [by rewrite begin_run |].
  split; [intros p; rewrite begin_run; apply initial_timings |].
  split; [| split].
  - intros k. rewrite during_run. cbn [hook].
    destruct (selection_after now _ _ _ _ (take k calls) Hs (subseteq_take _ _))
      as [Hik Htk].
    split; [exact Hik |]. split; [exact Htk |].
    intros p Hp. split.
    + apply slots_absent. by rewrite Hik.
    + apply eq_None_not_Some. by rewrite Htk.
  - rewrite startGeneration_run. cbn [hook loaded images timings]. by split.
  - intros p Hp. rewrite startGeneration_run. cbn [hook]. split.
    + apply slots_absent. cbn [loaded images]. by rewrite Hi.
    + cbn [loaded timings]. apply eq_None_not_Some. by rewrite Ht.
Qed.

(** ** Completeness *)

Lemma hasImage_singleton s p item :
  slots p s = [item] -> hasImage p s <-> ImageResult.image item ≠ None.
Proof.
  intros Hsl. unfold hasImage. rewrite Hsl. split.
  - intros (x & Hx & Hne). by apply list_elem_of_singleton in Hx as ->.
  - intros Hne. exists item. split; [by apply list_elem_of_singleton | done].
Qed.

(** C1, as the code has it. After a round over distinct providers, every
    selected provider has exactly one image slot and one timing slot, and
    is never both a provider with an image and a failed provider: it is a
    failed provider without image when its call failed, a provider with an
    image and not failed when its call returned one, and neither when its
    call returned a 2xx response without image. *)
Theorem completeness_distinct prompt providers p2m now (calls : list Call)
    (s0 : HookState) (p : ProviderKey) :
  Schedule prompt providers p2m calls -> NoDup providers -> p ∈ providers ->
  length (slots p (hook (startGeneration providers p2m now calls s0))) = 1%nat ∧
  is_Some (timings (hook (startGeneration providers p2m now calls s0)) !! p) ∧
  ¬ (hasImage p (hook (startGeneration providers p2m now calls s0)) ∧
     failed p (hook (startGeneration providers p2m now calls s0))) ∧
  ∃ c, c ∈ calls ∧ provider_of c = p ∧
    match verdict (outcome c) with
    | inl _ =>
        failed p (hook (startGeneration providers p2m now calls s0)) ∧
        ¬ hasImage p (hook (startGeneration providers p2m now calls s0))
    | inr (Some _) =>
        hasImage p (hook (startGeneration providers p2m now calls s0)) ∧
        ¬ failed p (hook (startGeneration providers p2m now calls s0))
    | inr None =>
        ¬ hasImage p (hook (startGeneration providers p2m now calls s0)) ∧
        ¬ failed p (hook (startGeneration providers p2m now calls s0))
    end.
Proof.
  intros Hs Hnd Hp.
  destruct (schedule_call_of _ _ _ _ _ Hs Hp) as (c & Hc & <-).
  destruct (round_end _ _ _ now _ s0 _ Hs Hnd Hc) as (Hsl & Ht & Hf).
  pose proof (hasImage_singleton _ _ _ Hsl) as Hi.
  cbn [ImageResult.image] in Hi.
  split; [by rewrite Hsl |]. split; [by rewrite Ht |].
  unfold fails in Hf. unfold resultImage in Hi.
  split.
  - intros [H1 H2]. apply Hi in H1. apply Hf in H2.
    by destruct (verdict (outcome c)).
  - exists c. split; [done |]. split; [done |].
    destruct (verdict (outcome c)) as [msg | [img |]].
    + split; [by apply Hf |]. intros H. by apply Hi in H.
    + split; [by apply Hi |]. intros H. by apply Hf in H.
    + split; intros H; [by apply Hi in H | by apply Hf in H].
Qed.

(** ** The end-to-end scenario *)

(** C9. [startGeneration("a cat", ["alpha","beta"], {alpha:"m1",
    beta:"m2"})], where [beta] rejects with an [Error] "rate limited" and
    [alpha] answers with the image "url1" afterwards, from any state and at
    any instant, ends with the images [alpha/"url1"/"m1"],
    [beta/absent/"m2"] in that order, the one error [beta/"rate limited"],
    the failed providers [beta], and [isLoading = false]. *)
Theorem end_to_end_scenario (now : Z) (s0 : HookState) :
  Schedule "a cat" scenario_providers scenario_models (scenario_calls now) ∧
  images (hook (startGeneration scenario_providers scenario_models now
                  (scenario_calls now) s0)) =
    [ {| ImageResult.provider := "alpha"; ImageResult.image := Some "url1";
         ImageResult.modelId := Some "m1" |};
      {| ImageResult.provider := "beta"; ImageResult.image := None;
         ImageResult.modelId := Some "m2" |} ] ∧
  errors (hook (startGeneration scenario_providers scenario_models now
                  (scenario_calls now) s0)) =
    [ {| ImageError.provider := "beta";
         ImageError.message := "rate limited" |} ] ∧
  failedProviders (hook (startGeneration scenario_providers scenario_models now
                           (scenario_calls now) s0)) = ["beta"] ∧
  isLoading (hook (startGeneration scenario_providers scenario_models now
                     (scenario_calls now) s0)) = false.
Proof.
  split; [apply perm_swap |].
  rewrite startGeneration_run. repeat split.
Qed.

(** ** Where the specification's wording fails *)

(** C1 as worded fails on a 200 response without image: [alpha] ends with
    no image and is not a failed provider, so it is in neither set. *)
Lemma completeness_counterexample :
  Schedule "a cat" ["alpha"] bare_models bare_calls ∧
  ["alpha"] ≠ ([] : list string) ∧
  ¬ Completeness ["alpha"] bare_models 1000 bare_calls idle.
Proof.
  split; [unfold Schedule; reflexivity |]. split; [discriminate |].
  intros H. destruct (H "alpha") as (_ & _ & [[Hi _] | [_ Hf]]).
  - by left.
  - destruct Hi as (item & Hin & Hne). vm_compute in Hin.
    apply list_elem_of_singleton in Hin. subst item. by apply Hne.
  - vm_compute in Hf. by apply elem_of_nil in Hf.
Qed.

(** The same provider selected twice gets two image slots. *)
Lemma completeness_twice :
  Schedule "a cat" ["alpha"; "alpha"] bare_models twice_calls ∧
  ¬ Completeness ["alpha"; "alpha"] bare_models 1000 twice_calls idle.
Proof.
  split; [unfold Schedule; reflexivity |].
  intros H. destruct (H "alpha") as (Hlen & _); [by left |].
  vm_compute in Hlen. discriminate.
Qed.

(** C2 as worded fails: a round for [alpha] drops the image slot and the
    timing slot that a previous round left for [gamma]. *)
Lemma outside_selection_counterexample :
  Schedule "a cat" ["alpha"] bare_models bare_calls ∧
  ¬ OutsideSelectionKept ["alpha"] bare_models 1000 bare_calls leftover.
Proof.
  split; [unfold Schedule; reflexivity |].
  intros H. destruct (H "gamma") as [Hsl _].
  - rewrite list_elem_of_singleton. discriminate.
  - vm_compute in Hsl. discriminate.
Qed.

(** ** The theorems at the end-to-end scenario *)

Lemma scenario_schedule :
  Schedule "a cat" scenario_providers scenario_models (scenario_calls 1000).
Proof. apply perm_swap. Defined.

Lemma scenario_distinct : NoDup scenario_providers.
Proof. apply (bool_decide_unpack _). vm_compute. exact I. Defined.

Lemma bare_schedule : Schedule "a cat" ["alpha"] bare_models bare_calls.
Proof. unfold Schedule. reflexivity. Defined.

Lemma bare_distinct : NoDup ["alpha"].
Proof. apply (bool_decide_unpack _). vm_compute. exact I. Defined.

Lemma completeness_distinct_witness :
  Schedule "a cat" scenario_providers scenario_models (scenario_calls 1000) ∧
  NoDup scenario_providers ∧
  "alpha" ∈ scenario_providers ∧
  length (slots "alpha"
            (hook (startGeneration scenario_providers scenario_models 1000
                     (scenario_calls 1000) idle))) = 1%nat ∧
  is_Some (timings (hook (startGeneration scenario_providers scenario_models
                            1000 (scenario_calls 1000) idle)) !! "alpha") ∧
  ¬ (hasImage "alpha"
       (hook (startGeneration scenario_providers scenario_models 1000
                (scenario_calls 1000) idle)) ∧
     failed "alpha"
       (hook (startGeneration scenario_providers scenario_models 1000
                (scenario_calls 1000) idle))) ∧
  ∃ c, c ∈ scenario_calls 1000 ∧ provider_of c = "alpha" ∧
    match verdict (outcome c) with
    | inl _ =>
        failed "alpha"
          (hook (startGeneration scenario_providers scenario_models 1000
                   (scenario_calls 1000) idle)) ∧
        ¬ hasImage "alpha"
            (hook (startGeneration scenario_providers scenario_models 1000
                     (scenario_calls 1000) idle))
    | inr (Some _) =>
        hasImage "alpha"
          (hook (startGeneration scenario_providers scenario_models 1000
                   (scenario_calls 1000) idle)) ∧
        ¬ failed "alpha"
            (hook (startGeneration scenario_providers scenario_models 1000
                     (scenario_calls 1000) idle))
    | inr None =>
        ¬ hasImage "alpha"
            (hook (startGeneration scenario_providers scenario_models 1000
                     (scenario_calls 1000) idle)) ∧
        ¬ failed "alpha"
            (hook (startGeneration scenario_providers scenario_models 1000
                     (scenario_calls 1000) idle))
    end.
Proof.
  split; [exact scenario_schedule |]. split; [exact scenario_distinct |].
  split; [by left |].
  apply (completeness_distinct "a cat" scenario_providers scenario_models 1000
           (scenario_calls 1000) idle "alpha").
  - exact scenario_schedule.
  - exact scenario_distinct.
  - by left.
Defined.

Lemma selection_replaces_slots_witness :
  Schedule "a cat" ["alpha"] bare_models bare_calls ∧
  images (hook (begin ["alpha"] bare_models 1000 leftover)) =
    (fun p => {| ImageResult.provider := p; ImageResult.image := None;
                 ImageResult.modelId := bare_models !! p |}) <$> ["alpha"] ∧
  (∀ p, timings (hook (begin ["alpha"] bare_models 1000 leftover)) !! p =
        if decide (p ∈ ["alpha"])
        then Some {| startTime := Some 1000; completionTime := None;
                     elapsed := None |}
        else None) ∧
  (∀ k : nat,
     ImageResult.provider
       <$> images (hook (during ["alpha"] bare_models 1000
                           (take k bare_calls) leftover))
     = ["alpha"] ∧
     (∀ p, is_Some (timings (hook (during ["alpha"] bare_models 1000
                                     (take k bare_calls) leftover))
                      !! p) <-> p ∈ ["alpha"]) ∧
     (∀ p, p ∉ ["alpha"] ->
        slots p (hook (during ["alpha"] bare_models 1000
                         (take k bare_calls) leftover)) = [] ∧
        timings (hook (during ["alpha"] bare_models 1000
                         (take k bare_calls) leftover)) !! p = None)) ∧
  (ImageResult.provider
     <$> images (hook (startGeneration ["alpha"] bare_models 1000 bare_calls
                         leftover))
   = ["alpha"] ∧
   ∀ p, is_Some (timings (hook (startGeneration ["alpha"] bare_models 1000
                                  bare_calls leftover))
                   !! p) <-> p ∈ ["alpha"]) ∧
  (∀ p, p ∉ ["alpha"] ->
     slots p (hook (startGeneration ["alpha"] bare_models 1000 bare_calls
                      leftover)) = [] ∧
     timings (hook (startGeneration ["alpha"] bare_models 1000 bare_calls
                      leftover)) !! p = None).
Proof.
  split; [exact bare_schedule |].
  apply (selection_replaces_slots "a cat" ["alpha"] bare_models 1000
           bare_calls leftover).
  exact bare_schedule.
Defined.

Lemma scenario_beta_fails (c : Call) :
  c ∈ scenario_calls 1000 -> provider_of c = "beta" -> fails c = true.
Proof.
  intros Hc Hp. apply elem_of_cons in Hc as [-> | Hc]; [reflexivity |].
  apply elem_of_cons in Hc as [-> | Hc]; [discriminate Hp |].
  by apply elem_of_nil in Hc.
Defined.

Lemma scenario_alpha_call :
  call "a cat" "alpha" (Some "m1") (success (Some "url1")) (1000 + 50)
  ∈ scenario_calls 1000.
Proof. right. left. Defined.

Lemma bare_alpha_call :
  call "a cat" "alpha" (Some "m1") (success None) 1040 ∈ bare_calls.
Proof. left. Defined.

Lemma shared_dispatch_instant_witness :
  Schedule "a cat" scenario_providers scenario_models (scenario_calls 1000) ∧
  NoDup scenario_providers ∧
  call "a cat" "alpha" (Some "m1") (success (Some "url1")) (1000 + 50)
    ∈ scenario_calls 1000 ∧
  fails (call "a cat" "alpha" (Some "m1") (success (Some "url1")) (1000 + 50))
    = false ∧
  timings (hook (startGeneration scenario_providers scenario_models 1000
                   (scenario_calls 1000) idle)) !! "alpha" =
    Some {| startTime := Some 1000; completionTime := Some 1050;
            elapsed := Some 50 |}.
Proof.
  split; [exact scenario_schedule |]. split; [exact scenario_distinct |].
  split; [exact scenario_alpha_call |]. split; [reflexivity |].
  exact (proj2 (proj2 (proj2
    (shared_dispatch_instant "a cat" scenario_providers scenario_models 1000
       (scenario_calls 1000) idle scenario_schedule scenario_distinct)))
    _ scenario_alpha_call eq_refl).
Defined.

Lemma no_completion_on_failure_witness :
  Schedule "a cat" scenario_providers scenario_models (scenario_calls 1000) ∧
  "beta" ∈ scenario_providers ∧
  (∀ c, c ∈ scenario_calls 1000 -> provider_of c = "beta" -> fails c = true) ∧
  timings (hook (startGeneration scenario_providers scenario_models 1000
                   (scenario_calls 1000) idle)) !! "beta" =
    Some {| startTime := Some 1000; completionTime := None; elapsed := None |}.
Proof.
  split; [exact scenario_schedule |]. split; [by right; left |].
  split; [exact scenario_beta_fails |].
  apply (proj2
    (no_completion_on_failure "a cat" scenario_providers scenario_models 1000
       (scenario_calls 1000) idle scenario_schedule)).
  - by right; left.
  - exact scenario_beta_fails.
Defined.

Lemma success_without_image_witness :
  Schedule "a cat" ["alpha"] bare_models bare_calls ∧
  NoDup ["alpha"] ∧
  ok {| status := 200;
        data := {| data_error := None; data_image := None |} |} = true ∧
  data_image (data {| status := 200;
                      data := {| data_error := None;
                                 data_image := None |} |}) = None ∧
  slots "alpha"
    (hook (startGeneration ["alpha"] bare_models 1000 bare_calls idle)) =
    [ {| ImageResult.provider := "alpha"; ImageResult.image := None;
         ImageResult.modelId := Some "m1" |} ] ∧
  timings (hook (startGeneration ["alpha"] bare_models 1000 bare_calls idle))
    !! "alpha" =
    Some {| startTime := Some 1000; completionTime := Some 1040;
            elapsed := Some 40 |} ∧
  ¬ hasImage "alpha"
      (hook (startGeneration ["alpha"] bare_models 1000 bare_calls idle)) ∧
  ¬ failed "alpha"
      (hook (startGeneration ["alpha"] bare_models 1000 bare_calls idle)) ∧
  ¬ namedInErrors "alpha"
      (hook (startGeneration ["alpha"] bare_models 1000 bare_calls idle)).
Proof.
  split; [exact bare_schedule |]. split; [exact bare_distinct |].
  split; [reflexivity |]. split; [reflexivity |].
  exact (proj2
    (success_without_image "a cat" ["alpha"] bare_models 1000 bare_calls idle
       {| status := 200;
          data := {| data_error := None; data_image := None |} |}
       bare_schedule bare_distinct eq_refl eq_refl)
    _ bare_alpha_call eq_refl).
Defined.

(** * Further properties of the hook *)

(** ** Isolation between providers *)

(** X1. A settled call of provider [q], whatever its outcome, changes
    nothing that belongs to another provider [p]: not its image slots, not
    its timing slot, not its membership of the Failed-Provider list, not
    whether an error names it; nor the loading flag. *)
Theorem generateImage_isolation now (p q : ProviderKey) (m : option string)
    (o : FetchOutcome) (t : Z) (s : HookState) :
  q ≠ p ->
  slots p (generateImage now q m o t s).1 = slots p s ∧
  timings (generateImage now q m o t s).1 !! p = timings s !! p ∧
  (failed p (generateImage now q m o t s).1 <-> failed p s) ∧
  (namedInErrors p (generateImage now q m o t s).1 <-> namedInErrors p s) ∧
  isLoading (generateImage now q m o t s).1 = isLoading s.
Proof.
  intros Hne. rewrite generateImage_run. cbn [fst].
  destruct (verdict o) as [msg | img]; unfold slots, failed, namedInErrors;
    cbn [onFailure onSuccess images timings failedProviders errors isLoading].
  - split; [by apply slots_overwrite_other |]. split; [done |].
    split; [| split; [| done]].
    + rewrite elem_of_app, list_elem_of_singleton.
      split; [intros [Hp | Hp]; [exact Hp | by destruct Hne] | by left].
    + split.
      * intros (e & He & Hp). apply elem_of_app in He as [He | He]; [by eauto |].
        apply list_elem_of_singleton in He. subst e. done.
      * intros (e & He & Hp). exists e. split; [| done].
        apply elem_of_app. by left.
  - split; [by apply slots_overwrite_other |].
    split; [by rewrite lookup_insert_ne |]. done.
Qed.

Lemma generateImage_isolation_witness :
  "beta" ≠ "alpha" ∧
  slots "alpha"
    (generateImage 1000 "beta" (Some "m2")
       (Rejects (ErrorObject "rate limited")) 1010 leftover).1 =
    slots "alpha" leftover ∧
  timings (generateImage 1000 "beta" (Some "m2")
             (Rejects (ErrorObject "rate limited")) 1010 leftover).1
    !! "alpha" = timings leftover !! "alpha" ∧
  (failed "alpha"
     (generateImage 1000 "beta" (Some "m2")
        (Rejects (ErrorObject "rate limited")) 1010 leftover).1 <->
   failed "alpha" leftover) ∧
  (namedInErrors "alpha"
     (generateImage 1000 "beta" (Some "m2")
        (Rejects (ErrorObject "rate limited")) 1010 leftover).1 <->
   namedInErrors "alpha" leftover) ∧
  isLoading (generateImage 1000 "beta" (Some "m2")
               (Rejects (ErrorObject "rate limited")) 1010 leftover).1 =
    isLoading leftover.
Proof.
  split; [discriminate |].
  apply (generateImage_isolation 1000 "alpha" "beta" (Some "m2")
           (Rejects (ErrorObject "rate limited")) 1010 leftover).
  discriminate.
Defined.

(** ** The error lists in closed form *)

Lemma step_errors now s c :
  errors (step now s c) =
  errors s ++ (if fails c then [failure_of c] else []).
Proof.
  unfold step, fails, failure_of. destruct (verdict (outcome c)); cbn; [done |].
  by rewrite app_nil_r.
Qed.

Lemma run_errors now cs s :
  errors (foldl (step now) s cs) =
  errors s ++ (failure_of <$> filter (fun c => fails c = true) cs).
Proof.
  revert s. induction cs as [| c cs IH]; intros s.
  - cbn. by rewrite app_nil_r.
  - cbn [foldl]. rewrite IH, step_errors, filter_cons.
    destruct (fails c) eqn:Hc.
    + rewrite decide_True by done. by rewrite <- app_assoc.
    + rewrite decide_False by done. by rewrite app_nil_r.
Qed.

(** X2. At every point of a round and after it, the Generation Errors
    are exactly the failures of the calls settled so far, one entry per
    failed call and in the order in which they settled, and the
    Failed-Provider list is the list of their providers, index by index. *)
Theorem errors_in_settlement_order providers p2m now (settled : list Call)
    (s0 : HookState) :
  errors (hook (during providers p2m now settled s0)) =
    failure_of <$> filter (fun c => fails c = true) settled ∧
  failedProviders (hook (during providers p2m now settled s0)) =
    provider_of <$> filter (fun c => fails c = true) settled ∧
  errors (hook (startGeneration providers p2m now settled s0)) =
    failure_of <$> filter (fun c => fails c = true) settled ∧
  failedProviders (hook (startGeneration providers p2m now settled s0)) =
    ImageError.provider
      <$> errors (hook (startGeneration providers p2m now settled s0)).
Proof.
  rewrite during_run, startGeneration_run.
  cbn [hook loaded errors failedProviders].
  rewrite run_errors, run_failedProviders. cbn [initial errors failedProviders].
  rewrite !app_nil_l. repeat split.
  rewrite <- list_fmap_compose. reflexivity.
Qed.

(** X3. Under a complete schedule the Failed-Provider list is contained in
    the selection as a multiset: every failed provider was selected, no
    provider is listed more often than it was selected, and with distinct
    providers the list has no repetition. *)
Theorem failed_within_selection prompt providers p2m now (calls : list Call)
    (s0 : HookState) :
  Schedule prompt providers p2m calls ->
  failedProviders (hook (startGeneration providers p2m now calls s0))
    ⊆+ providers ∧
  (length (failedProviders (hook (startGeneration providers p2m now calls s0)))
     ≤ length providers)%nat ∧
  (NoDup providers ->
   NoDup (failedProviders (hook (startGeneration providers p2m now calls s0)))).
Proof.
  intros Hs.
  assert (Hsub : failedProviders
                   (hook (startGeneration providers p2m now calls s0))
                 ⊆+ providers).
  { rewrite startGeneration_run. cbn [hook loaded failedProviders].
    rewrite run_failedProviders. cbn [initial failedProviders].
    rewrite app_nil_l, <- (schedule_providers _ _ _ _ Hs).
    apply fmap_submseteq, sublist_submseteq, sublist_filter. }
  split; [exact Hsub |]. split; [by apply submseteq_length |].
  intros Hnd. destruct (submseteq_Permutation _ _ Hsub) as [k Hk].
  rewrite Hk in Hnd. by apply NoDup_app in Hnd as (? & _ & _).
Qed.

Lemma failed_within_selection_witness :
  Schedule "a cat" scenario_providers scenario_models (scenario_calls 1000) ∧
  failedProviders (hook (startGeneration scenario_providers scenario_models
                           1000 (scenario_calls 1000) idle))
    ⊆+ scenario_providers ∧
  (length (failedProviders
             (hook (startGeneration scenario_providers scenario_models 1000
                      (scenario_calls 1000) idle)))
     ≤ length scenario_providers)%nat ∧
  (NoDup scenario_providers ->
   NoDup (failedProviders
            (hook (startGeneration scenario_providers scenario_models 1000
                     (scenario_calls 1000) idle)))).
Proof.
  split; [exact scenario_schedule |].
  apply (failed_within_selection "a cat" scenario_providers scenario_models
           1000 (scenario_calls 1000) idle).
  exact scenario_schedule.
Defined.

(** ** The order in which calls settle *)










(** When a provider is selected twice the order does matter: the call that
    settles last decides the image both slots show. *)
Example settlement_order_matters_with_repeats :
  images (hook (startGeneration ["alpha"; "alpha"] bare_models 1000
                  twice_calls idle)) ≠
  images (hook (startGeneration ["alpha"; "alpha"] bare_models 1000
                  (reverse twice_calls) idle)).
Proof. vm_compute. discriminate. Qed.

(** ** Model identifiers *)

Lemma step_modelIds now (p2m : gmap string string) s c :
  body_modelId (request c) = p2m !! provider_of c ->
  Forall (fun item => ImageResult.modelId item = p2m !! ImageResult.provider item)
         (images s) ->
  Forall (fun item => ImageResult.modelId item = p2m !! ImageResult.provider item)
         (images (step now s c)).
Proof.
  intros Hm Hall. rewrite step_images. apply Forall_fmap.
  eapply Forall_impl; [exact Hall |]. intros item Hitem. cbn.
  unfold overwrite. case_decide as Hp; [| exact Hitem].
  cbn. by rewrite Hm, Hp.
Qed.

Lemma run_modelIds now prompt providers (p2m : gmap string string) calls cs s :
  Schedule prompt providers p2m calls -> cs ⊆ calls ->
  Forall (fun item => ImageResult.modelId item = p2m !! ImageResult.provider item)
         (images s) ->
  Forall (fun item => ImageResult.modelId item = p2m !! ImageResult.provider item)
         (images (foldl (step now) s cs)).
Proof.
  intros Hs. revert s.
  induction cs as [| c cs IH]; intros s Hsub Hinit; cbn [foldl]; [done |].
  apply IH.
  - intros x Hx. apply Hsub. by right.
  - apply step_modelIds; [| done].
    eapply schedule_modelId; [exact Hs |]. apply Hsub. by left.
Qed.

(** X5. Under a complete schedule, at every point of the round and after
    it, every image slot carries the model identifier that
    [providerToModel] maps its provider to; a provider missing from
    [providerToModel] is not rejected: its slots carry no model identifier
    and its request was sent without one. *)
Theorem modelId_follows_mapping prompt providers
    (p2m : gmap string string) now (calls : list Call) (s0 : HookState) :
  Schedule prompt providers p2m calls ->
  (∀ k : nat,
     Forall (fun item =>
               ImageResult.modelId item = p2m !! ImageResult.provider item)
            (images (hook (during providers p2m now (take k calls) s0)))) ∧
  Forall (fun item =>
            ImageResult.modelId item = p2m !! ImageResult.provider item)
         (images (hook (startGeneration providers p2m now calls s0))) ∧
  (∀ c, c ∈ calls -> p2m !! provider_of c = None ->
     body_modelId (request c) = None ∧
     ∀ item, item ∈ slots (provider_of c)
                      (hook (startGeneration providers p2m now calls s0)) ->
             ImageResult.modelId item = None).
Proof.
  intros Hs.
  assert (Hrun : ∀ cs, cs ⊆ calls ->
            Forall (fun item =>
                      ImageResult.modelId item = p2m !! ImageResult.provider item)
                   (images (foldl (step now) (initial providers p2m now) cs))).
  { intros cs Hsub. eapply run_modelIds; [exact Hs | exact Hsub |].
    cbn [initial images]. apply Forall_fmap, Forall_forall. by intros p _. }
  split; [| split].
  - intros k. rewrite during_run. cbn [hook]. apply Hrun, subseteq_take.
  - rewrite startGeneration_run. cbn [hook loaded images]. by apply Hrun.
  - intros c Hc Hnone. split.
    + by rewrite (schedule_modelId _ _ _ _ _ Hs Hc).
    + intros item Hin. apply list_elem_of_filter in Hin as [Hp Hin].
      rewrite startGeneration_run in Hin. cbn [hook loaded images] in Hin.
      pose proof (Hrun calls (reflexivity _)) as Hall.
      rewrite Forall_forall in Hall. rewrite (Hall item Hin), Hp. done.
Qed.

Lemma modelId_follows_mapping_witness :
  Schedule "a cat" ["gamma"] bare_models
    [ call "a cat" "gamma" None (success (Some "url3")) 1040 ] ∧
  bare_models !! "gamma" = None ∧
  ∀ item,
    item ∈ slots "gamma"
             (hook (startGeneration ["gamma"] bare_models 1000
                      [ call "a cat" "gamma" None (success (Some "url3")) 1040 ]
                      idle)) ->
    ImageResult.modelId item = None.
Proof.
  assert (Hs : Schedule "a cat" ["gamma"] bare_models
                 [ call "a cat" "gamma" None (success (Some "url3")) 1040 ]).
  { unfold Schedule. reflexivity. }
  split; [exact Hs |]. split; [reflexivity |].
  apply (proj2 (proj2
    (modelId_follows_mapping "a cat" ["gamma"] bare_models 1000
       [ call "a cat" "gamma" None (success (Some "url3")) 1040 ] idle Hs))
    (call "a cat" "gamma" None (success (Some "url3")) 1040)).
  - by left.
  - reflexivity.
Defined.

(** ** Rounds and what came before *)

(** X6. A round over an empty selection has no call to wait for; it ends
    with every collection empty and [isLoading = false], and the promise of
    [startGeneration] fulfils: the empty selection is accepted silently. *)
Theorem empty_selection_round prompt (p2m : gmap string string) now
    (calls : list Call) (s0 : HookState) :
  Schedule prompt [] p2m calls ->
  calls = [] ∧
  isLoading (hook (begin [] p2m now s0)) = true ∧
  startGeneration [] p2m now calls s0 =
    {| hook := {| images := []; errors := []; timings := ∅;
                  failedProviders := []; isLoading := false |};
       promise := Some (inr tt) |}.
Proof.
  unfold Schedule. cbn [dispatch fmap list_fmap]. intros H.
  apply Permutation_nil_r, fmap_nil_inv in H. subst calls. by repeat split.
Qed.

Lemma empty_selection_round_witness :
  Schedule "a cat" [] bare_models [] ∧
  ([] : list Call) = [] ∧
  isLoading (hook (begin [] bare_models 1000 leftover)) = true ∧
  startGeneration [] bare_models 1000 [] leftover =
    {| hook := {| images := []; errors := []; timings := ∅;
                  failedProviders := []; isLoading := false |};
       promise := Some (inr tt) |}.
Proof.
  assert (Hs : Schedule "a cat" [] bare_models []).
  { unfold Schedule. reflexivity. }
  split; [exact Hs |].
  apply (empty_selection_round "a cat" bare_models 1000 [] leftover Hs).
Defined.

(** X7. A round keeps nothing of the state it starts from: from any two
    previous states, the same calls settling in the same order give the
    same state at every point of the round and after it. In particular the
    errors and failed providers of an earlier round never mix into those of
    the new one. *)
Theorem round_forgets_previous_state providers p2m now (settled : list Call)
    (s0 s0' : HookState) :
  during providers p2m now settled s0 = during providers p2m now settled s0' ∧
  startGeneration providers p2m now settled s0 =
  startGeneration providers p2m now settled s0'.
Proof. by rewrite !during_run, !startGeneration_run. Qed.

(** ** Timings *)

Lemma timingOf_mono now (settled settled' : list Call) p tm :
  settled ⊆ settled' -> timingOf now settled p tm -> timingOf now settled' p tm.
Proof.
  intros Hsub [-> | (c & Hc & Hrest)]; [by left |].
  right. exists c. split; [by apply Hsub | done].
Qed.

Lemma run_timingOf now cs :
  ∀ (done_ : list Call) s,
    map_Forall (timingOf now done_) (timings s) ->
    map_Forall (timingOf now (done_ ++ cs)) (timings (foldl (step now) s cs)).
Proof.
  induction cs as [| c cs IH]; intros done_ s Hs; cbn [foldl].
  - by rewrite app_nil_r.
  - rewrite cons_middle, app_assoc. apply IH.
    assert (Hold : map_Forall (timingOf now (done_ ++ [c])) (timings s)).
    { intros p tm Hp. eapply timingOf_mono; [| by apply Hs].
      intros x Hx. apply elem_of_app. by left. }
    destruct (fails c) eqn:Hc.
    + by rewrite timings_step_fails.
    + unfold step. unfold fails in Hc.
      destruct (verdict (outcome c)) as [| img] eqn:Hv; [discriminate |].
      cbn [onSuccess timings]. apply map_Forall_insert_2; [| exact Hold].
      right. exists c. split; [apply elem_of_app; right; by left |].
      split; [done |]. split; [| done]. unfold fails. by rewrite Hv.
Qed.

(** X8. At every point of a round, every timing slot is the slot of the
    prologue ([startTime = now], no completion fields) or the slot written
    by a successful settled call of that very provider ([completionTime]
    the instant it settled, [elapsed] counted from [now]); so completion
    fields never appear without a success, and when no call settles before
    the dispatch instant no recorded [elapsed] is negative. *)
Theorem timings_well_formed providers p2m now (settled : list Call)
    (s0 : HookState) :
  map_Forall (timingOf now settled)
    (timings (hook (during providers p2m now settled s0))) ∧
  ((∀ c, c ∈ settled -> now ≤ settledAt c) ->
   map_Forall (fun _ tm => ∀ e, elapsed tm = Some e -> 0 ≤ e)
     (timings (hook (during providers p2m now settled s0)))).
Proof.
  assert (H : map_Forall (timingOf now settled)
                (timings (hook (during providers p2m now settled s0)))).
  { rewrite during_run. cbn [hook].
    apply (run_timingOf now settled [] (initial providers p2m now)).
    intros p tm Hp. left. rewrite initial_timings in Hp.
    case_decide; congruence. }
  split; [exact H |]. intros Hclock p tm Hp e He.
  destruct (H p tm Hp) as [-> | (c & Hc & _ & _ & ->)]; [discriminate |].
  cbn in He. injection He as <-. specialize (Hclock c Hc). lia.
Qed.

Lemma timings_well_formed_witness :
  (∀ c, c ∈ scenario_calls 1000 -> 1000 ≤ settledAt c) ∧
  map_Forall (fun _ tm => ∀ e, elapsed tm = Some e -> 0 ≤ e)
    (timings (hook (during scenario_providers scenario_models 1000
                      (scenario_calls 1000) idle))).
Proof.
  assert (Hclock : ∀ c, c ∈ scenario_calls 1000 -> 1000 ≤ settledAt c).
  { intros c Hc. apply elem_of_cons in Hc as [-> | Hc]; [cbn; lia |].
    apply elem_of_cons in Hc as [-> | Hc]; [cbn; lia |].
    by apply elem_of_nil in Hc. }
  split; [exact Hclock |].
  exact (proj2 (timings_well_formed scenario_providers scenario_models 1000
                  (scenario_calls 1000) idle) Hclock).
Defined.

(** ** Calls that settle when their slot is gone *)

Lemma overwrite_absent p img m (l : list ImageResult.t) :
  filter (fun item => ImageResult.provider item = p) l = [] ->
  overwrite p img m <$> l = l.
Proof.
  intros Hnone. induction l as [| x l IH]; [reflexivity |].
  rewrite filter_cons in Hnone. case_decide as Hx; [discriminate |].
  rewrite fmap_cons, IH by done. unfold overwrite. by rewrite decide_False.
Qed.

(** X9. A settled call never adds, removes or reorders image slots; when
    its provider has no slot (the state was reset, or another round has
    replaced the slots meanwhile) the images stay as they are, yet a
    success still writes the provider's timing slot and a failure is still
    appended to the errors and to the failed providers. *)
Theorem settlement_without_slot now (q : ProviderKey) (m : option string)
    (o : FetchOutcome) (t : Z) (s : HookState) :
  ImageResult.provider <$> images (generateImage now q m o t s).1 =
    ImageResult.provider <$> images s ∧
  (slots q s = [] ->
   images (generateImage now q m o t s).1 = images s ∧
   match verdict o with
   | inl msg =>
       failedProviders (generateImage now q m o t s).1 =
         failedProviders s ++ [q] ∧
       errors (generateImage now q m o t s).1 =
         errors s ++ [ {| ImageError.provider := q;
                          ImageError.message := msg |} ]
   | inr _ =>
       timings (generateImage now q m o t s).1 !! q =
         Some (doneTiming now t)
   end).
Proof.
  rewrite generateImage_run. cbn [fst]. split.
  - destruct (verdict o); cbn [onFailure onSuccess images];
      rewrite <- list_fmap_compose; apply list_fmap_ext;
      intros i x _; apply overwrite_provider.
  - unfold slots. intros Hnone.
    destruct (verdict o); cbn [onFailure onSuccess images failedProviders
                                errors timings].
    + split; [by apply overwrite_absent | done].
    + split; [by apply overwrite_absent | by rewrite lookup_insert_eq].
Qed.

Lemma settlement_without_slot_witness :
  slots "alpha" idle = [] ∧
  images (generateImage 1000 "alpha" (Some "m1") (success (Some "url1")) 1040
            idle).1 = images idle ∧
  timings (generateImage 1000 "alpha" (Some "m1") (success (Some "url1")) 1040
             idle).1 !! "alpha" = Some (doneTiming 1000 1040).
Proof.
  split; [reflexivity |].
  exact (proj2 (settlement_without_slot 1000 "alpha" (Some "m1")
                  (success (Some "url1")) 1040 idle) eq_refl).
Defined.

(** X10. [resetState] does not cancel a round in flight: a call that
    settles after the reset leaves the images empty, but its failure is
    appended to the (emptied) errors and failed providers, and its success
    writes a completed timing slot into the Provider Registry's record. *)
Theorem settlement_after_reset (empty : gmap string ProviderTiming) now
    (q : ProviderKey) (m : option string) (o : FetchOutcome) (t : Z)
    (s : HookState) :
  images (generateImage now q m o t (resetState empty s).1).1 = [] ∧
  isLoading (generateImage now q m o t (resetState empty s).1).1 = false ∧
  match verdict o with
  | inl msg =>
      failedProviders (generateImage now q m o t (resetState empty s).1).1
        = [q] ∧
      errors (generateImage now q m o t (resetState empty s).1).1
        = [ {| ImageError.provider := q; ImageError.message := msg |} ] ∧
      timings (generateImage now q m o t (resetState empty s).1).1 = empty
  | inr _ =>
      failedProviders (generateImage now q m o t (resetState empty s).1).1
        = [] ∧
      errors (generateImage now q m o t (resetState empty s).1).1 = [] ∧
      timings (generateImage now q m o t (resetState empty s).1).1
        = <[q := {| startTime := Some now; completionTime := Some t;
                    elapsed := Some (t - now) |}]> empty
  end.
Proof.
  rewrite generateImage_run. cbn [fst].
  destruct (verdict o); by repeat split.
Qed.

(** * The submit handler of [InputCapture] *)

Example session_of_three :
  session (Some 5) (Some 12) [inr tt; inl OtherValue; inr tt; inr tt] =
  (2%nat, Some 2).
Proof. reflexivity. Qed.

(** X11. With tracked credits [c] and a price [k], [handleSubmit] reloads
    the page exactly when [c < k] or [c < 1] (so a user without credits is
    turned away even from a tool that costs nothing); it then returns
    without running the generation, whatever [generateResponse] would have
    done, and leaves the credits cell alone. *)
Theorem insufficient_credits_reload (k c : Z) (gen : Thrown + unit)
    (prev : option Z) :
  ((handleSubmit (Some k) (Some c) gen prev).2 = Reloaded <-> c < k ∨ c < 1) ∧
  ((handleSubmit (Some k) (Some c) gen prev).2 = Reloaded ->
   (handleSubmit (Some k) (Some c) gen prev).1 = prev ∧
   ∀ gen', handleSubmit (Some k) (Some c) gen' prev = (prev, Reloaded)).
Proof.
  unfold handleSubmit. cbn [andb].
  destruct ((c <? k) || (c <? 1)) eqn:Hshort.
  - apply orb_true_iff in Hshort. rewrite !Z.ltb_lt in Hshort.
    cbn. repeat split; done.
  - apply orb_false_iff in Hshort as [Hk H1]. apply Z.ltb_ge in Hk, H1.
    destruct gen as [e | []]; cbn; (split; [split; [done | lia] | done]).
Qed.

(** The credits cell changes only when a generation has completed:
    a reload or a rejected [generateResponse] leaves it as it was; and when
    the page passes no credits or the tool has no price, [handleSubmit]
    never reloads and never touches the cell. *)
Theorem credits_change_only_on_generation (toolCredits credits : option Z)
    (gen : Thrown + unit) (prev : option Z) :
  ((handleSubmit toolCredits credits gen prev).2 ≠ Generated ->
   (handleSubmit toolCredits credits gen prev).1 = prev) ∧
  (credits = None ∨ toolCredits = None ->
   (handleSubmit toolCredits credits gen prev).1 = prev ∧
   (handleSubmit toolCredits credits gen prev).2 ≠ Reloaded).
Proof.
  unfold handleSubmit. split.
  - destruct credits as [c |], toolCredits as [k |], gen as [e | []]; cbn;
      try done; destruct ((c <? k) || (c <? 1)); cbn; done.
  - intros [-> | ->].
    + destruct toolCredits, gen as [e | []]; cbn; done.
    + destruct credits, gen as [e | []]; cbn; done.
Qed.

Lemma session_spent (k : Z) (gens : list (Thrown + unit)) :
  ∀ c, 0 ≤ c ->
    (session (Some k) (Some c) gens).2
      = Some (c - Z.of_nat (session (Some k) (Some c) gens).1 * k) ∧
    0 ≤ c - Z.of_nat (session (Some k) (Some c) gens).1 * k.
Proof.
  induction gens as [| gen rest IH]; intros c Hc; cbn [session].
  - cbn. split; [f_equal; lia | lia].
  - unfold handleSubmit. cbn [andb].
    destruct ((c <? k) || (c <? 1)) eqn:Hshort.
    + cbn. split; [f_equal; lia | lia].
    + apply orb_false_iff in Hshort as [Hk H1].
      apply Z.ltb_ge in Hk, H1.
      destruct gen as [e | []].
      * by apply IH.
      * unfold updateCredits. rewrite decide_False by lia.
        destruct (IH (c - k) ltac:(lia)) as [Hfin Hnn].
        destruct (session (Some k) (Some (c - k)) rest) as [n final].
        cbn [fst snd] in *. rewrite Hfin. split; [f_equal; lia | lia].
Qed.

(** X12. In a session of submits made one after the other, starting with
    [c >= 0] credits and a price of [k] per generation, the credits cell
    always holds [c] minus [k] times the number of completed generations,
    and that is never negative (nor ever [undefined]): the user never gets
    more generations than the credits pay for, and a rejected generation
    costs nothing. *)
Theorem session_within_credits (k c : Z) (gens : list (Thrown + unit)) :
  0 ≤ c ->
  (session (Some k) (Some c) gens).2
    = Some (c - Z.of_nat (session (Some k) (Some c) gens).1 * k) ∧
  Z.of_nat (session (Some k) (Some c) gens).1 * k ≤ c.
Proof.
  intros Hc. destruct (session_spent k gens c Hc) as [Hfin Hnn].
  split; [exact Hfin | lia].
Qed.

Lemma session_within_credits_witness :
  0 ≤ 12 ∧
  (session (Some 5) (Some 12) [inr tt; inl OtherValue; inr tt; inr tt]).2
    = Some (12 - Z.of_nat
                   (session (Some 5) (Some 12)
                      [inr tt; inl OtherValue; inr tt; inr tt]).1 * 5) ∧
  Z.of_nat (session (Some 5) (Some 12)
              [inr tt; inl OtherValue; inr tt; inr tt]).1 * 5 ≤ 12.
Proof.
  split; [lia |].
  apply (session_within_credits 5 12 [inr tt; inl OtherValue; inr tt; inr tt]).
  lia.
Defined.

(** X13. When the page passes no credits, or the tool has no price, a
    session is never cut short: every generation that does not reject
    completes, however many there are, and the credits cell stays as it
    is. *)
Theorem session_untracked (toolCredits credits : option Z)
    (gens : list (Thrown + unit)) :
  credits = None ∨ toolCredits = None ->
  session toolCredits credits gens =
  (length (filter (fun g => fulfils g = true) gens), credits).
Proof.
  intros H. induction gens as [| gen rest IH]; [reflexivity |].
  cbn [session].
  assert (Hh : handleSubmit toolCredits credits gen credits =
               (credits, match gen with
                         | inl e => GenerationThrew e
                         | inr _ => Generated
                         end)).
  { unfold handleSubmit. destruct H as [-> | ->].
    - destruct toolCredits, gen as [e | []]; reflexivity.
    - destruct credits, gen as [e | []]; reflexivity. }
  rewrite Hh, filter_cons. destruct gen as [e | []]; cbn [fulfils].
  - rewrite decide_False by done. exact IH.
  - rewrite decide_True by done. rewrite IH. reflexivity.
Qed.

Lemma session_untracked_witness :
  ((None : option Z) = None ∨ Some 5 = (None : option Z)) ∧
  session (Some 5) None [inr tt; inl OtherValue; inr tt; inr tt] =
  (length (filter (fun g => fulfils g = true)
             [inr tt; inl OtherValue; inr tt; inr tt]), None).
Proof.
  split; [by left |].
  apply (session_untracked (Some 5) None
           [inr tt; inl OtherValue; inr tt; inr tt]).
  by left.
Defined.
